(** * Depth-first traversal of a pointer-linked binary tree (examples/tree.c)

    The C program keeps seven [struct Node] objects in the frame of [main],
    links them through their [left] and [right] pointers, and walks them with
    the recursive procedure [dfs], which calls [visit] to print one line per
    node.

    The embedding keeps what the C code has: a memory of [struct Node]
    objects addressed by pointers that may be [NULL], a standard-output
    stream, and procedures that thread that state and may go wrong on a bad
    dereference.  [dfs] follows pointers, so on a cyclic memory it does not
    return: its model takes a recursion budget. *)

From Stdlib Require Import Ascii.
From stdpp Require Import gmap strings list fin_maps.

Local Open Scope Z_scope.
Local Open Scope nat_scope.

(** ** Memory model *)

(** Addresses of objects; a pointer is an address or [NULL]. *)
Definition addr := nat.
Abbreviation ptr := (option addr).
Abbreviation NULL := (@None addr).

(** [struct Node { struct Node* left; struct Node* right; char* name; }].
    A [char*] is [NULL] or points to a string. *)
Record Node := mkNode {
  left : ptr;
  right : ptr;
  name : option string;
}.

#[global] Instance Node_eq_dec : EqDecision Node.
Proof. solve_decision. Defined.

(** Ghost events, recorded so that calls can be counted: every entry of
    [dfs] (with the argument its null test inspects) and every call of
    [visit]. *)
Inductive event :=
| EDfs (node : ptr)
| EVisit (node : ptr).

#[global] Instance event_eq_dec : EqDecision event.
Proof. solve_decision. Defined.

(** Program state: the objects in memory, what was written to standard
    output so far, and the ghost trace. *)
Record state := mkState {
  mem : gmap addr Node;
  stdout : string;
  trace : list event;
}.

Definition initial : state := {| mem := ∅; stdout := ""; trace := [] |}.

(** Ways a run goes wrong (undefined behaviour in C). *)
Inductive fault :=
| NullDeref       (* [p->field] with [p == NULL] *)
| InvalidDeref    (* [p->field] where [p] points to no object *)
| NullString      (* [%s] given a [NULL] string *)
| MissingArg.     (* [%s] with no argument left *)

Inductive outcome (A : Type) :=
| Done (x : A)
| Fault (why : fault)
| OutOfFuel.
Arguments Done {A} x.
Arguments Fault {A} why.
Arguments OutOfFuel {A}.

#[global] Instance outcome_ret : MRet outcome := @Done.
#[global] Instance outcome_bind : MBind outcome := λ A B k r,
  match r with
  | Done x => k x
  | Fault why => Fault why
  | OutOfFuel => OutOfFuel
  end.

(** [p->...]: read the object [p] points to. *)
Definition deref (p : ptr) (s : state) : outcome Node :=
  match p with
  | None => Fault NullDeref
  | Some x =>
      match mem s !! x with
      | Some nd => Done nd
      | None => Fault InvalidDeref
      end
  end.

Definition record (ev : event) (s : state) : state :=
  {| mem := mem s; stdout := stdout s; trace := trace s ++ [ev] |}.

Definition write (text : string) (s : state) : state :=
  {| mem := mem s; stdout := stdout s +:+ text; trace := trace s |}.

(** ** printf *)

Definition LF : string := String (ascii_of_nat 10) "".

(** Expansion of a format string.  Only the [%s] directive, the one the
    program uses, is interpreted; each takes the next argument. *)
Fixpoint format (fmt : string) (args : list (option string)) : outcome string :=
  match fmt with
  | EmptyString => Done EmptyString
  | String "%"%char (String "s"%char rest) =>
      match args with
      | [] => Fault MissingArg
      | None :: _ => Fault NullString
      | Some arg :: args => text ← format rest args; Done (arg +:+ text)
      end
  | String ch rest => text ← format rest args; Done (String ch text)
  end.

Definition printf (fmt : string) (args : list (option string)) (s : state)
  : outcome state :=
  text ← format fmt args; Done (write text s).

(** ** The procedures of tree.c *)

(** [void visit(struct Node* node)] *)
Definition visit (node : ptr) (s : state) : outcome state :=
  let s := record (EVisit node) s in
  nd ← deref node s;
  printf ("visiting node '%s'" +:+ LF) [name nd] s.

(** [void dfs(struct Node *node)].  [fuel] bounds the depth of the
    recursion. *)
Fixpoint dfs (fuel : nat) (node : ptr) (s : state) : outcome state :=
  match fuel with
  | O => OutOfFuel
  | S fuel =>
      let s := record (EDfs node) s in
      match node with
      | None => Done s
      | Some _ =>
          s ← visit node s;
          nd ← deref node s;
          s ← dfs fuel (left nd) s;
          nd ← deref node s;
          dfs fuel (right nd) s
      end
  end.

(** The addresses of the seven automatic variables of [main]. *)
Record frame := mkFrame {
  root : addr; a : addr; b : addr; c : addr; d : addr; e : addr; f : addr;
}.

Definition locals (fr : frame) : list addr :=
  [root fr; a fr; b fr; c fr; d fr; e fr; f fr].

(** Distinct variables live at distinct addresses. *)
Definition frame_ok (fr : frame) : Prop := NoDup (locals fr).

(** [struct Node x = {.name = nm}]: the members not named are zeroed. *)
Definition declare (x : addr) (nm : string) (s : state) : state :=
  {| mem := <[x := {| left := NULL; right := NULL; name := Some nm |}]> (mem s);
     stdout := stdout s; trace := trace s |}.

(** [x.left = v] and [x.right = v] for a variable [x]. *)
Definition set_left (x : addr) (v : ptr) (s : state) : state :=
  {| mem := alter (λ nd, {| left := v; right := right nd; name := name nd |}) x (mem s);
     stdout := stdout s; trace := trace s |}.

Definition set_right (x : addr) (v : ptr) (s : state) : state :=
  {| mem := alter (λ nd, {| left := left nd; right := v; name := name nd |}) x (mem s);
     stdout := stdout s; trace := trace s |}.

(** The declarations of [main]. *)
Definition main_declare (fr : frame) (s : state) : state :=
  let s := declare (root fr) "root" s in
  let s := declare (a fr) "a" s in
  let s := declare (b fr) "b" s in
  let s := declare (c fr) "c" s in
  let s := declare (d fr) "d" s in
  let s := declare (e fr) "e" s in
  declare (f fr) "f" s.

(** The six assignments under [connect nodes]. *)
Definition main_connect (fr : frame) (s : state) : state :=
  let s := set_left (root fr) (Some (a fr)) s in
  let s := set_right (root fr) (Some (b fr)) s in
  let s := set_left (a fr) (Some (c fr)) s in
  let s := set_right (a fr) (Some (d fr)) s in
  let s := set_left (d fr) (Some (e fr)) s in
  set_right (b fr) (Some (f fr)) s.

(** The state in which [main] starts the traversal. *)
Definition linked (fr : frame) : state := main_connect fr (main_declare fr initial).

(** [int main(void)]: the result is the exit status and the final state. *)
Definition main (fr : frame) (fuel : nat) : outcome (Z * state) :=
  let s := linked fr in
  s ← printf ("beginning depth first search" +:+ LF) [] s;
  s ← dfs fuel (Some (root fr)) s;
  s ← printf ("finished depth first search" +:+ LF) [] s;
  Done (0%Z, s).

(** A concrete frame, for running the program. *)
Definition frame0 : frame :=
  {| root := 0; a := 1; b := 2; c := 3; d := 4; e := 5; f := 6 |}.

(** ** Functional model: trees and their pre-order walk *)

(** The shape a pointer unfolds to: [Leaf] for [NULL], [Br x nm l r] for a
    pointer to the object at [x] whose name is [nm]. *)
Inductive tree :=
| Leaf
| Br (x : addr) (nm : string) (l r : tree).

Fixpoint preorder (t : tree) : list addr :=
  match t with
  | Leaf => []
  | Br x _ l r => x :: preorder l ++ preorder r
  end.

Fixpoint names (t : tree) : list string :=
  match t with
  | Leaf => []
  | Br _ nm l r => nm :: names l ++ names r
  end.

Fixpoint nodes (t : tree) : nat :=
  match t with
  | Leaf => 0
  | Br _ _ l r => S (nodes l + nodes r)
  end.

Fixpoint height (t : tree) : nat :=
  match t with
  | Leaf => 0
  | Br _ _ l r => S (height l `max` height r)
  end.

(** The line [visit] prints for a node called [nm], without its newline. *)
Definition visit_line (nm : string) : string := "visiting node '" +:+ nm +:+ "'".

(** Text made of the given lines, each ended by a newline. *)
Fixpoint unlines (ls : list string) : string :=
  match ls with
  | [] => ""
  | l :: ls => (l +:+ LF) +:+ unlines ls
  end.

(** The lines of a text: the inverse reading of [unlines]. *)
Fixpoint lines (text : string) : list string :=
  match text with
  | EmptyString => []
  | String ch rest =>
      if Ascii.eqb ch (ascii_of_nat 10) then "" :: lines rest
      else match lines rest with
           | [] => [String ch ""]
           | l :: ls => String ch l :: ls
           end
  end.

(** The events of a walk of [t]. *)
Fixpoint events (t : tree) : list event :=
  match t with
  | Leaf => [EDfs NULL]
  | Br x _ l r => EDfs (Some x) :: EVisit (Some x) :: events l ++ events r
  end.

(** The state after a walk of [t] started in [s]. *)
Definition walked (t : tree) (s : state) : state :=
  {| mem := mem s;
     stdout := stdout s +:+ unlines (visit_line <$> names t);
     trace := trace s ++ events t |}.

(** Readings of the ghost trace: the arguments of the calls of [visit], the
    number of entries of [dfs] whose null test found [NULL], and the number
    of those which found a node. *)
Definition visit_calls (tr : list event) : list ptr :=
  omap (λ ev, match ev with EVisit p => Some p | EDfs _ => None end) tr.

Definition dfs_calls (tr : list event) : list ptr :=
  omap (λ ev, match ev with EDfs p => Some p | EVisit _ => None end) tr.

Definition null_checks (tr : list event) : nat :=
  length (filter (λ p, p = NULL) (dfs_calls tr)).

Definition node_steps (tr : list event) : nat :=
  length (filter (λ p, p ≠ NULL) (dfs_calls tr)).

(** [repr m p t]: in memory [m], following [left] and [right] from [p]
    unfolds to the finite tree [t]: every pointer met is [NULL] or points to
    an object of [m], and every such object has a name (its [name] is not
    [NULL]). *)
Inductive repr (m : gmap addr Node) : ptr → tree → Prop :=
| repr_null : repr m NULL Leaf
| repr_node x nd nm l r :
    m !! x = Some nd →
    name nd = Some nm →
    repr m (left nd) l →
    repr m (right nd) r →
    repr m (Some x) (Br x nm l r).

(** [tree_at m p t]: the objects reachable from [p] form the tree [t]; no
    object occurs twice in it, so there is no sharing and no cycle. *)
Definition tree_at (m : gmap addr Node) (p : ptr) (t : tree) : Prop :=
  repr m p t ∧ NoDup (preorder t).

(** [reachable m p x]: the object at [x] is reached from [p] through
    [left] and [right] pointers. *)
Inductive reachable (m : gmap addr Node) : ptr → addr → Prop :=
| reach_here x nd : m !! x = Some nd → reachable m (Some x) x
| reach_left x nd y :
    m !! x = Some nd → reachable m (left nd) y → reachable m (Some x) y
| reach_right x nd y :
    m !! x = Some nd → reachable m (right nd) y → reachable m (Some x) y.

(** The tree [main] builds. *)
Definition main_tree (fr : frame) : tree :=
  Br (root fr) "root"
    (Br (a fr) "a"
      (Br (c fr) "c" Leaf Leaf)
      (Br (d fr) "d" (Br (e fr) "e" Leaf Leaf) Leaf))
    (Br (b fr) "b" Leaf (Br (f fr) "f" Leaf Leaf)).

(** The state in which [main] returns. *)
Definition final (fr : frame) : state :=
  write ("finished depth first search" +:+ LF)
    (walked (main_tree fr)
       (write ("beginning depth first search" +:+ LF) (linked fr))).

(** How many times [x] occurs in [l]. *)
Definition occurrences `{EqDecision A} (x : A) (l : list A) : nat :=
  length (filter (λ y, y = x) l).

#[global] Instance frame_ok_dec (fr : frame) : Decision (frame_ok fr).
Proof. unfold frame_ok. apply _. Defined.

(** A memory of two nodes on a cycle: the left child of 0 is 1, the right
    child of 1 is 0. *)
Definition cyclic : state :=
  {| mem := {[ 0 := {| left := Some 1; right := NULL; name := Some "p" |};
               1 := {| left := NULL; right := Some 0; name := Some "q" |} ]};
     stdout := ""; trace := [] |}.

(** [on_cycle m x]: the object at [x] is reached again from one of its own
    children. *)
Definition on_cycle (m : gmap addr Node) (x : addr) : Prop :=
  ∃ nd, m !! x = Some nd ∧ (reachable m (left nd) x ∨ reachable m (right nd) x).


(** ** Tactics *)

(** Pairwise distinctness of the locals, as disequalities in the context. *)
Ltac frame_distinct H :=
  unfold frame_ok, locals in H;
  repeat (apply NoDup_cons in H; destruct H as [? H]);
  repeat match goal with
  | N : _ ∉ _ :: _ |- _ => apply not_elem_of_cons in N; destruct N as [? N]
  end.

(** Decide a closed decidable proposition by evaluation. *)
Ltac by_evaluation := apply (bool_decide_unpack _); vm_compute; exact I.

(** ** Strings *)

Lemma string_app_assoc (s1 s2 s3 : string) :
  (s1 +:+ s2) +:+ s3 = s1 +:+ (s2 +:+ s3).
Proof.
  induction s1 as [|ch s1 IH]; [done|].
  change (String ch ((s1 +:+ s2) +:+ s3) = String ch (s1 +:+ (s2 +:+ s3))).
  by rewrite IH.
Qed.

Lemma string_app_nil_r (s : string) : s +:+ "" = s.
Proof.
  induction s as [|ch s IH]; [done|].
  change (String ch (s +:+ "") = String ch s). by rewrite IH.
Qed.

Lemma unlines_app (ls1 ls2 : list string) :
  unlines (ls1 ++ ls2) = unlines ls1 +:+ unlines ls2.
Proof.
  induction ls1 as [|l ls1 IH]; [done|].
  cbn [unlines app]. by rewrite IH, !string_app_assoc.
Qed.

Lemma format_visit (nm : string) :
  format ("visiting node '%s'" +:+ LF) [Some nm] = Done (visit_line nm +:+ LF).
Proof. unfold visit_line. rewrite !string_app_assoc. reflexivity. Qed.

(** ** The walk of a represented tree *)

Lemma visit_ok (s : state) (x : addr) (nd : Node) (nm : string) :
  mem s !! x = Some nd →
  name nd = Some nm →
  visit (Some x) s
  = Done (write (visit_line nm +:+ LF) (record (EVisit (Some x)) s)).
Proof.
  intros Hx Hnm. unfold visit, deref, printf. cbn [mem record].
  rewrite Hx. cbn [mbind outcome_bind]. rewrite Hnm, format_visit. done.
Qed.

Lemma walked_leaf (s : state) : walked Leaf s = record (EDfs NULL) s.
Proof. unfold walked, record. cbn. by rewrite string_app_nil_r. Qed.

Lemma walked_br (x : addr) (nm : string) (l r : tree) (s : state) :
  walked (Br x nm l r) s
  = walked r (walked l (write (visit_line nm +:+ LF)
       (record (EVisit (Some x)) (record (EDfs (Some x)) s)))).
Proof.
  unfold walked, write, record. cbn [mem stdout trace names events fmap list_fmap unlines].
  f_equal.
  - rewrite fmap_app, unlines_app. by rewrite !string_app_assoc.
  - by rewrite <- !app_assoc.
Qed.

(** [dfs] on a represented tree returns exactly when the budget exceeds the
    height of the tree, and then it has walked the tree. *)
Lemma dfs_repr (m : gmap addr Node) (p : ptr) (t : tree) :
  repr m p t →
  ∀ fuel s, mem s = m →
    dfs fuel p s = if decide (height t < fuel) then Done (walked t s) else OutOfFuel.
Proof.
  induction 1 as [|x nd nm l r Hx Hnm _ IHl _ IHr]; intros [|fuel] s Hm; [done| |done|].
  - cbn. by rewrite walked_leaf.
  - subst m. cbn [dfs height].
    rewrite (visit_ok _ x nd nm) by done. cbn [mbind outcome_bind deref mem write record].
    rewrite Hx. cbn [mbind outcome_bind]. rewrite IHl by done. rewrite walked_br.
    destruct (decide (height l < fuel)) as [Hl|Hl].
    + cbn [mbind outcome_bind deref mem walked write record]. rewrite Hx.
      cbn [mbind outcome_bind].
      rewrite IHr by done.
      destruct (decide (height r < fuel)) as [Hr|Hr].
      * by rewrite decide_True by lia.
      * by rewrite decide_False by lia.
    + cbn [mbind outcome_bind]. by rewrite decide_False by lia.
Qed.

(** ** Readings of the trace of a walk *)

Lemma visit_calls_events (t : tree) : visit_calls (events t) = Some <$> preorder t.
Proof.
  unfold visit_calls. induction t as [|x nm l IHl r IHr]; [done|].
  cbn [events omap list_omap preorder fmap list_fmap].
  change (list_omap ?g ?l) with (omap g l).
  by rewrite omap_app, IHl, IHr, fmap_app.
Qed.

Lemma dfs_calls_events_br (x : addr) (nm : string) (l r : tree) :
  dfs_calls (events (Br x nm l r))
  = Some x :: dfs_calls (events l) ++ dfs_calls (events r).
Proof.
  unfold dfs_calls. cbn [events omap list_omap].
  change (list_omap ?g ?l) with (omap g l). by rewrite omap_app.
Qed.

Lemma null_checks_events (t : tree) : null_checks (events t) = S (nodes t).
Proof.
  unfold null_checks. induction t as [|x nm l IHl r IHr]; [done|].
  rewrite dfs_calls_events_br, filter_cons_False by (intros ?; done).
  rewrite filter_app, length_app, IHl, IHr. cbn [nodes]. lia.
Qed.

Lemma node_steps_events (t : tree) : node_steps (events t) = nodes t.
Proof.
  unfold node_steps. induction t as [|x nm l IHl r IHr]; [done|].
  rewrite dfs_calls_events_br, filter_cons_True by done.
  rewrite filter_app. cbn [length nodes]. by rewrite length_app, IHl, IHr.
Qed.

Lemma length_preorder (t : tree) : length (preorder t) = nodes t.
Proof.
  induction t as [|x nm l IHl r IHr]; [done|].
  cbn [preorder nodes length]. by rewrite length_app, IHl, IHr.
Qed.

(** The objects reachable from a pointer are those of the tree it unfolds
    to. *)
Lemma reachable_repr (m : gmap addr Node) (p : ptr) (t : tree) :
  repr m p t → ∀ y, reachable m p y ↔ y ∈ preorder t.
Proof.
  induction 1 as [|x nd nm l r Hx Hnm _ IHl _ IHr]; intros y.
  - split; [inversion 1 | by intros ?%elem_of_nil].
  - cbn [preorder]. rewrite elem_of_cons, elem_of_app, <- IHl, <- IHr. split.
    + inversion 1; simplify_eq; auto.
    + intros [->|[?|?]]; eauto using reachable.
Qed.

(** ** The memory [main] builds *)

(** What the declarations and assignments do to one object. *)
Lemma lookup_declare_eq (s : state) (x : addr) (nm : string) :
  mem (declare x nm s) !! x = Some {| left := NULL; right := NULL; name := Some nm |}.
Proof. unfold declare. cbn [mem]. apply lookup_insert_eq. Qed.

Lemma lookup_declare_ne (s : state) (x y : addr) (nm : string) :
  x ≠ y → mem (declare x nm s) !! y = mem s !! y.
Proof. unfold declare. cbn [mem]. apply lookup_insert_ne. Qed.

Lemma lookup_set_left_eq (s : state) (x : addr) (v : ptr) :
  mem (set_left x v s) !! x
  = (λ nd, {| left := v; right := right nd; name := name nd |}) <$> mem s !! x.
Proof. unfold set_left. cbn [mem]. apply lookup_alter_eq. Qed.

Lemma lookup_set_left_ne (s : state) (x y : addr) (v : ptr) :
  x ≠ y → mem (set_left x v s) !! y = mem s !! y.
Proof. unfold set_left. cbn [mem]. apply lookup_alter_ne. Qed.

Lemma lookup_set_right_eq (s : state) (x : addr) (v : ptr) :
  mem (set_right x v s) !! x
  = (λ nd, {| left := left nd; right := v; name := name nd |}) <$> mem s !! x.
Proof. unfold set_right. cbn [mem]. apply lookup_alter_eq. Qed.

Lemma lookup_set_right_ne (s : state) (x y : addr) (v : ptr) :
  x ≠ y → mem (set_right x v s) !! y = mem s !! y.
Proof. unfold set_right. cbn [mem]. apply lookup_alter_ne. Qed.

Lemma dom_declare (s : state) (x : addr) (nm : string) :
  dom (mem (declare x nm s)) = {[x]} ∪ dom (mem s).
Proof. unfold declare. cbn [mem]. apply dom_insert_L. Qed.

Lemma dom_set_left (s : state) (x : addr) (v : ptr) :
  dom (mem (set_left x v s)) = dom (mem s).
Proof. unfold set_left. cbn [mem]. apply dom_alter_L. Qed.

Lemma dom_set_right (s : state) (x : addr) (v : ptr) :
  dom (mem (set_right x v s)) = dom (mem s).
Proof. unfold set_right. cbn [mem]. apply dom_alter_L. Qed.

(** Lookup of a local in the memory after the declarations and the
    assignments. *)
Ltac lookup_linked :=
  unfold linked, main_connect, main_declare; cbv zeta;
  repeat first
    [ rewrite lookup_set_left_ne by done
    | rewrite lookup_set_right_ne by done
    | rewrite lookup_declare_ne by done
    | rewrite lookup_set_left_eq
    | rewrite lookup_set_right_eq
    | rewrite lookup_declare_eq ];
  try reflexivity.

Section linked_memory.
Context (fr : frame) (Hfr : frame_ok fr).

Lemma linked_root :
  mem (linked fr) !! root fr
  = Some {| left := Some (a fr); right := Some (b fr); name := Some "root" |}.
Proof using Hfr. frame_distinct Hfr. lookup_linked. Qed.

Lemma linked_a :
  mem (linked fr) !! a fr
  = Some {| left := Some (c fr); right := Some (d fr); name := Some "a" |}.
Proof using Hfr. frame_distinct Hfr. lookup_linked. Qed.

Lemma linked_b :
  mem (linked fr) !! b fr
  = Some {| left := NULL; right := Some (f fr); name := Some "b" |}.
Proof using Hfr. frame_distinct Hfr. lookup_linked. Qed.

Lemma linked_c :
  mem (linked fr) !! c fr
  = Some {| left := NULL; right := NULL; name := Some "c" |}.
Proof using Hfr. frame_distinct Hfr. lookup_linked. Qed.

Lemma linked_d :
  mem (linked fr) !! d fr
  = Some {| left := Some (e fr); right := NULL; name := Some "d" |}.
Proof using Hfr. frame_distinct Hfr. lookup_linked. Qed.

Lemma linked_e :
  mem (linked fr) !! e fr
  = Some {| left := NULL; right := NULL; name := Some "e" |}.
Proof using Hfr. frame_distinct Hfr. lookup_linked. Qed.

Lemma linked_f :
  mem (linked fr) !! f fr
  = Some {| left := NULL; right := NULL; name := Some "f" |}.
Proof using Hfr. frame_distinct Hfr. lookup_linked. Qed.

Lemma linked_dom : dom (mem (linked fr)) = list_to_set (locals fr).
Proof.
  unfold linked, main_connect, main_declare. cbv zeta.
  repeat first [rewrite dom_set_left | rewrite dom_set_right | rewrite dom_declare].
  unfold initial, locals. cbn [mem list_to_set]. rewrite dom_empty_L.
  apply set_eq. intros x. rewrite !elem_of_union, !elem_of_singleton. tauto.
Qed.

Lemma linked_repr : repr (mem (linked fr)) (Some (root fr)) (main_tree fr).
Proof using Hfr.
  unfold main_tree.
  repeat first
    [ apply repr_null
    | eapply repr_node;
      [ first [ apply linked_root | apply linked_a | apply linked_b
              | apply linked_c | apply linked_d | apply linked_e
              | apply linked_f ]
      | reflexivity | cbn [left right] .. ] ].
Qed.

Lemma main_tree_NoDup : NoDup (preorder (main_tree fr)).
Proof using Hfr.
  assert (preorder (main_tree fr) ≡ₚ locals fr) as ->; [|exact Hfr].
  unfold locals. cbn. solve_Permutation.
Qed.

Lemma linked_tree : tree_at (mem (linked fr)) (Some (root fr)) (main_tree fr).
Proof using Hfr. split; [apply linked_repr | apply main_tree_NoDup]. Qed.
End linked_memory.

(** [main] returns exactly when the budget exceeds the height of its tree;
    it then returns 0 in the state [final]. *)
Lemma main_run (fr : frame) :
  frame_ok fr →
  ∀ fuel, main fr fuel = if decide (4 < fuel) then Done (0%Z, final fr) else OutOfFuel.
Proof.
  intros Hfr fuel. unfold main, printf.
  change (format ("beginning depth first search" +:+ LF) [])
    with (Done ("beginning depth first search" +:+ LF)).
  change (format ("finished depth first search" +:+ LF) [])
    with (Done ("finished depth first search" +:+ LF)).
  cbn [mbind outcome_bind].
  rewrite (dfs_repr _ _ _ (linked_repr fr Hfr)) by done.
  change (height (main_tree fr)) with 4.
  by destruct (decide (4 < fuel)).
Qed.

Lemma final_stdout (fr : frame) :
  stdout (final fr)
  = unlines
      [ "beginning depth first search";
        "visiting node 'root'";
        "visiting node 'a'";
        "visiting node 'c'";
        "visiting node 'd'";
        "visiting node 'e'";
        "visiting node 'b'";
        "visiting node 'f'";
        "finished depth first search" ].
Proof. reflexivity. Qed.

Lemma final_trace (fr : frame) : trace (final fr) = events (main_tree fr).
Proof. reflexivity. Qed.

(** ** Faults and frame of [visit] and [dfs] on any memory *)

(** Every way [visit] can end. *)
Lemma visit_cases (node : ptr) (s : state) :
  visit node s
  = match node with
    | None => Fault NullDeref
    | Some x =>
        match mem s !! x with
        | None => Fault InvalidDeref
        | Some nd =>
            match name nd with
            | None => Fault NullString
            | Some nm =>
                Done (write (visit_line nm +:+ LF) (record (EVisit node) s))
            end
        end
    end.
Proof.
  destruct node as [x|]; [|done].
  destruct (mem s !! x) as [nd|] eqn:Hx.
  - destruct (name nd) as [nm|] eqn:Hnm.
    + by apply (visit_ok s x nd nm).
    + unfold visit, deref, printf. cbn [mem record]. rewrite Hx.
      cbn [mbind outcome_bind]. by rewrite Hnm.
  - unfold visit, deref. cbn [mem record]. by rewrite Hx.
Qed.

(** A completed [visit] changes the output and the trace only. *)
Lemma visit_done (node : ptr) (s s' : state) :
  visit node s = Done s' →
  ∃ x nd nm,
    node = Some x ∧ mem s !! x = Some nd ∧ name nd = Some nm ∧
    s' = write (visit_line nm +:+ LF) (record (EVisit (Some x)) s).
Proof.
  rewrite visit_cases. destruct node as [x|]; [|done].
  destruct (mem s !! x) as [nd|] eqn:Hx; [|done].
  destruct (name nd) as [nm|] eqn:Hnm; [|done].
  intros [= <-]. by exists x, nd, nm.
Qed.

(** One level of [dfs] at a pointer to a node. *)
Lemma dfs_step (fuel : nat) (x : addr) (s : state) :
  dfs (S fuel) (Some x) s
  = (s1 ← visit (Some x) (record (EDfs (Some x)) s);
     nd ← deref (Some x) s1;
     s2 ← dfs fuel (left nd) s1;
     nd ← deref (Some x) s2;
     dfs fuel (right nd) s2).
Proof. reflexivity. Qed.

Lemma bind_done {A B : Type} (r : outcome A) (k : A → outcome B) (y : B) :
  r ≫= k = Done y → ∃ x, r = Done x ∧ k x = Done y.
Proof. destruct r as [x| |]; [|done..]. intros Hk. by exists x. Qed.

Lemma bind_fault {A B : Type} (r : outcome A) (k : A → outcome B) (why : fault) :
  r ≫= k = Fault why → r = Fault why ∨ ∃ x, r = Done x ∧ k x = Fault why.
Proof.
  destruct r as [x| |]; intros Hk; [|left; by injection Hk as ->|done]. right. by exists x.
Qed.

(** What a completed [dfs] did: the memory is as before, the trace was
    extended, and no call of [visit] had a [NULL] argument. *)
Lemma dfs_done (fuel : nat) :
  ∀ node s s', dfs fuel node s = Done s' →
    mem s' = mem s ∧ ∃ tr, trace s' = trace s ++ tr ∧ NULL ∉ visit_calls tr.
Proof.
  induction fuel as [|fuel IH]; intros node s s'; [done|].
  destruct node as [x|].
  - rewrite dfs_step.
    intros (s1 & Hv & (nd1 & _ & (s2 & Hl & (nd2 & _ & Hr)%bind_done)%bind_done)%bind_done)%bind_done.
    apply visit_done in Hv as (? & _ & nm & [= <-] & _ & _ & ->).
    apply IH in Hl as (Hm2 & tr2 & Ht2 & Hn2).
    apply IH in Hr as (Hm3 & tr3 & Ht3 & Hn3).
    split; [by rewrite Hm3, Hm2|].
    exists ([EDfs (Some x); EVisit (Some x)] ++ tr2 ++ tr3). split.
    + rewrite Ht3, Ht2. cbn [trace write record]. by rewrite <- !app_assoc.
    + unfold visit_calls in *. rewrite !omap_app, !elem_of_app.
      intros [H|[H|H]]; [|done..]. cbn in H. by apply list_elem_of_singleton in H.
  - intros [= <-]. split; [done|]. exists [EDfs NULL]. split; [done|].
    cbn. apply not_elem_of_nil.
Qed.

(** [dfs] never dereferences [NULL], whatever the memory holds. *)
Lemma dfs_no_null_deref (fuel : nat) :
  ∀ node s, dfs fuel node s ≠ Fault NullDeref.
Proof.
  induction fuel as [|fuel IH]; intros node s; [done|].
  destruct node as [x|]; [|done].
  rewrite dfs_step, visit_cases. cbn [mem record].
  destruct (mem s !! x) as [nd|] eqn:Hx; [|done].
  destruct (name nd) as [nm|]; [|done].
  cbn [mbind outcome_bind deref mem write record]. rewrite Hx.
  cbn [mbind outcome_bind].
  intros [Hl|(s2 & Hl & Hr)]%bind_fault; [by apply IH in Hl|].
  apply bind_fault in Hr as [Hr|(nd2 & _ & Hr)]; [|by apply IH in Hr].
  apply dfs_done in Hl as [Hm _]. unfold deref in Hr.
  cbn [mem write record] in Hm. rewrite Hm, Hx in Hr. done.
Qed.

(** ** Outside trees

    [dfs] tests nothing but [node == NULL]: the two lemmas below show what
    it does when the memory is not a tree. *)

(** On a node that is its own left child no budget is enough. *)
Lemma dfs_self_loop (fuel : nat) :
  ∀ (s : state) (x : addr) (nd : Node) (nm : string),
    mem s !! x = Some nd →
    name nd = Some nm →
    left nd = Some x →
    dfs fuel (Some x) s = OutOfFuel.
Proof.
  induction fuel as [|fuel IH]; intros s x nd nm Hx Hnm Hl; [done|].
  rewrite dfs_step, (visit_ok _ x nd nm) by done.
  cbn [mbind outcome_bind deref mem write record]. rewrite Hx.
  cbn [mbind outcome_bind]. rewrite Hl.
  by rewrite (IH _ x nd nm).
Qed.

(** A node that is both children of its parent is visited twice. *)
Example dfs_shared_child :
  let m : gmap addr Node :=
    {[ 0 := {| left := Some 1; right := Some 1; name := Some "p" |};
       1 := {| left := NULL; right := NULL; name := Some "q" |} ]} in
  ∃ s',
    dfs 3 (Some 0) {| mem := m; stdout := ""; trace := [] |} = Done s' ∧
    visit_calls (trace s') = [Some 0; Some 1; Some 1].
Proof. eexists. split; vm_compute; reflexivity. Qed.

(** ** Counting *)

Lemma occurrences_absent `{EqDecision A} (x : A) (l : list A) :
  x ∉ l → occurrences x l = 0.
Proof.
  unfold occurrences. induction l as [|y l IH]; [done|].
  intros [Hne Hl]%not_elem_of_cons.
  rewrite filter_cons_False by done. by apply IH.
Qed.

Lemma occurrences_NoDup `{EqDecision A} (x : A) (l : list A) :
  NoDup l → x ∈ l → occurrences x l = 1.
Proof.
  induction 1 as [|y l Hy Hl IH]; [by intros ?%elem_of_nil|].
  intros [->|Hx]%elem_of_cons.
  - pose proof (occurrences_absent y l Hy) as H0. unfold occurrences in *.
    rewrite filter_cons_True by done. cbn [length]. by rewrite H0.
  - specialize (IH Hx). unfold occurrences in *.
    by rewrite filter_cons_False by (intros ->; done).
Qed.

(** The number of nodes of a tree in memory is the number of objects
    reachable from its root. *)
Lemma nodes_reachable (m : gmap addr Node) (p : ptr) (t : tree) (X : gset addr) :
  tree_at m p t → (∀ x, x ∈ X ↔ reachable m p x) → size X = nodes t.
Proof.
  intros [Hrepr Hnd] HX.
  assert (X = list_to_set (preorder t)) as ->.
  { apply set_eq. intros x.
    by rewrite HX, elem_of_list_to_set, (reachable_repr m p t Hrepr). }
  by rewrite size_list_to_set, length_preorder.
Qed.

(** ** The program as a whole *)

(** C1. With the tree wired in [main] (root->left=a, root->right=b,
    a->left=c, a->right=d, d->left=e, b->right=f), the program returns
    having written to standard output exactly the line [beginning depth
    first search], the seven lines [visiting node '...'] for root, a, c, d,
    e, b, f in this order, and the line [finished depth first search]: the
    output is these nine lines, each ended by a newline, and nothing else. *)
Theorem main_output (fr : frame) (fuel : nat) :
  frame_ok fr →
  4 < fuel →
  ∃ s, main fr fuel = Done (0%Z, s) ∧
    stdout s
    = unlines
        [ "beginning depth first search";
          "visiting node 'root'";
          "visiting node 'a'";
          "visiting node 'c'";
          "visiting node 'd'";
          "visiting node 'e'";
          "visiting node 'b'";
          "visiting node 'f'";
          "finished depth first search" ] ∧
    lines (stdout s)
    = [ "beginning depth first search";
        "visiting node 'root'";
        "visiting node 'a'";
        "visiting node 'c'";
        "visiting node 'd'";
        "visiting node 'e'";
        "visiting node 'b'";
        "visiting node 'f'";
        "finished depth first search" ].
Proof.
  intros Hfr Hfuel. exists (final fr).
  rewrite main_run, decide_True by done.
  split; [done|]. rewrite final_stdout. split; reflexivity.
Qed.

Lemma main_output_witness :
  ∃ s, main frame0 5 = Done (0%Z, s) ∧
    stdout s
    = unlines
        [ "beginning depth first search";
          "visiting node 'root'";
          "visiting node 'a'";
          "visiting node 'c'";
          "visiting node 'd'";
          "visiting node 'e'";
          "visiting node 'b'";
          "visiting node 'f'";
          "finished depth first search" ] ∧
    lines (stdout s)
    = [ "beginning depth first search";
        "visiting node 'root'";
        "visiting node 'a'";
        "visiting node 'c'";
        "visiting node 'd'";
        "visiting node 'e'";
        "visiting node 'b'";
        "visiting node 'f'";
        "finished depth first search" ].
Proof. apply (main_output frame0 5); [by_evaluation | lia]. Defined.

(** C2. On the seven-node tree built in [main], [dfs] calls [visit] on the
    nodes in exactly the order root, a, c, d, e, b, f, which is the
    pre-order of the tree (a node, then all of its left subtree, then all of
    its right subtree); the lines it prints name them in that order. *)
Theorem dfs_order (fr : frame) (fuel : nat) (s : state) :
  frame_ok fr →
  4 < fuel →
  mem s = mem (linked fr) →
  ∃ s' tr,
    dfs fuel (Some (root fr)) s = Done s' ∧
    trace s' = trace s ++ tr ∧
    visit_calls tr = Some <$> [root fr; a fr; c fr; d fr; e fr; b fr; f fr] ∧
    visit_calls tr = Some <$> preorder (main_tree fr) ∧
    stdout s'
    = stdout s +:+ unlines (visit_line <$> ["root"; "a"; "c"; "d"; "e"; "b"; "f"]).
Proof.
  intros Hfr Hfuel Hm.
  exists (walked (main_tree fr) s), (events (main_tree fr)).
  rewrite (dfs_repr _ _ _ (linked_repr fr Hfr) fuel s Hm).
  change (height (main_tree fr)) with 4. rewrite decide_True by done.
  rewrite visit_calls_events. done.
Qed.

Lemma dfs_order_witness :
  ∃ s' tr,
    dfs 5 (Some 0) (linked frame0) = Done s' ∧
    trace s' = [] ++ tr ∧
    visit_calls tr = Some <$> [0; 1; 3; 4; 5; 2; 6] ∧
    visit_calls tr = Some <$> preorder (main_tree frame0) ∧
    stdout s'
    = "" +:+ unlines (visit_line <$> ["root"; "a"; "c"; "d"; "e"; "b"; "f"]).
Proof.
  apply (dfs_order frame0 5 (linked frame0)); [by_evaluation | lia | reflexivity].
Defined.

(** C5. Called with [NULL], [dfs] returns at once and normally: it calls
    neither [visit] nor itself, writes nothing and goes wrong in no way;
    the only step is its own null test. *)
Theorem dfs_null (fuel : nat) (s : state) :
  ∃ s',
    dfs (S fuel) NULL s = Done s' ∧
    trace s' = trace s ++ [EDfs NULL] ∧
    visit_calls [EDfs NULL] = [] ∧
    stdout s' = stdout s ∧
    mem s' = mem s.
Proof. by exists (record (EDfs NULL) s). Qed.

(** C6. At a node both of whose child pointers are [NULL] (c, e and f in the
    tree of [main]), [dfs] calls [visit] on the node, prints its line, and
    then only makes the two calls on the [NULL] children, each of which
    returns from its null test: no further [visit]. *)
Theorem dfs_leaf (fuel : nat) (s : state) (x : addr) (nd : Node) (nm : string) :
  mem s !! x = Some nd →
  left nd = NULL →
  right nd = NULL →
  name nd = Some nm →
  dfs (S (S fuel)) (Some x) s
  = Done {| mem := mem s;
            stdout := stdout s +:+ (visit_line nm +:+ LF);
            trace := trace s ++ [EDfs (Some x); EVisit (Some x); EDfs NULL; EDfs NULL] |}.
Proof.
  intros Hx Hl Hr Hnm.
  assert (repr (mem s) (Some x) (Br x nm Leaf Leaf)) as Hrepr.
  { eapply repr_node; [done..| |]; [rewrite Hl|rewrite Hr]; apply repr_null. }
  rewrite (dfs_repr _ _ _ Hrepr _ s eq_refl). cbn [height].
  rewrite decide_True by lia. unfold walked. cbn [names events fmap list_fmap unlines app].
  by rewrite string_app_nil_r.
Qed.

Lemma dfs_leaf_witness :
  Forall (λ '(x, nm),
    dfs 2 (Some x) (linked frame0)
    = Done {| mem := mem (linked frame0);
              stdout := stdout (linked frame0) +:+ (visit_line nm +:+ LF);
              trace := trace (linked frame0)
                       ++ [EDfs (Some x); EVisit (Some x); EDfs NULL; EDfs NULL] |})
    [(c frame0, "c"); (e frame0, "e"); (f frame0, "f")].
Proof.
  repeat apply Forall_cons_2; [| | |apply Forall_nil_2];
    (eapply (dfs_leaf 0 (linked frame0)); [vm_compute; reflexivity | reflexivity..]).
Defined.

(** C7. The declarations and assignments of [main] leave in memory exactly
    seven nodes, with the distinct names root, a, b, c, d, e, f, linked as:
    root.left = a, root.right = b, a.left = c, a.right = d, d.left = e,
    b.right = f; every other child pointer (b.left, d.right, and both
    pointers of c, e and f) is [NULL]. *)
Theorem main_builds_tree (fr : frame) :
  frame_ok fr →
  let m := mem (linked fr) in
  m !! root fr
    = Some {| left := Some (a fr); right := Some (b fr); name := Some "root" |} ∧
  m !! a fr
    = Some {| left := Some (c fr); right := Some (d fr); name := Some "a" |} ∧
  m !! b fr = Some {| left := NULL; right := Some (f fr); name := Some "b" |} ∧
  m !! c fr = Some {| left := NULL; right := NULL; name := Some "c" |} ∧
  m !! d fr = Some {| left := Some (e fr); right := NULL; name := Some "d" |} ∧
  m !! e fr = Some {| left := NULL; right := NULL; name := Some "e" |} ∧
  m !! f fr = Some {| left := NULL; right := NULL; name := Some "f" |} ∧
  dom m = list_to_set (locals fr) ∧
  size m = 7 ∧
  NoDup ((λ x, m !! x ≫= name) <$> locals fr).
Proof.
  intros Hfr m. subst m.
  pose proof (linked_root fr Hfr) as Hroot. pose proof (linked_a fr Hfr) as Ha.
  pose proof (linked_b fr Hfr) as Hb. pose proof (linked_c fr Hfr) as Hc.
  pose proof (linked_d fr Hfr) as Hd. pose proof (linked_e fr Hfr) as He.
  pose proof (linked_f fr Hfr) as Hf.
  repeat (split; [done|]). split; [apply linked_dom|]. split.
  - rewrite <- size_dom, linked_dom, size_list_to_set by exact Hfr. done.
  - unfold locals. cbn [fmap list_fmap].
    rewrite Hroot, Ha, Hb, Hc, Hd, He, Hf. cbn [mbind option_bind name].
    by_evaluation.
Qed.

Lemma main_builds_tree_witness :
  let m := mem (linked frame0) in
  m !! 0 = Some {| left := Some 1; right := Some 2; name := Some "root" |} ∧
  m !! 1 = Some {| left := Some 3; right := Some 4; name := Some "a" |} ∧
  m !! 2 = Some {| left := NULL; right := Some 6; name := Some "b" |} ∧
  m !! 3 = Some {| left := NULL; right := NULL; name := Some "c" |} ∧
  m !! 4 = Some {| left := Some 5; right := NULL; name := Some "d" |} ∧
  m !! 5 = Some {| left := NULL; right := NULL; name := Some "e" |} ∧
  m !! 6 = Some {| left := NULL; right := NULL; name := Some "f" |} ∧
  dom m = list_to_set (locals frame0) ∧
  size m = 7 ∧
  NoDup ((λ x, m !! x ≫= name) <$> locals frame0).
Proof. apply (main_builds_tree frame0). by_evaluation. Defined.

(** C8. [main] returns, and its exit status is 0: with a sufficient
    recursion budget it ends with status 0; with no budget does it go
    wrong, and it never ends with another status. *)
Theorem main_exit_status (fr : frame) :
  frame_ok fr →
  (∀ fuel, 4 < fuel → ∃ s, main fr fuel = Done (0%Z, s)) ∧
  (∀ fuel why, main fr fuel ≠ Fault why) ∧
  (∀ fuel status s, main fr fuel = Done (status, s) → status = 0%Z).
Proof.
  intros Hfr. repeat split.
  - intros fuel Hfuel. exists (final fr). by rewrite main_run, decide_True.
  - intros fuel why. rewrite main_run by done. by case_decide.
  - intros fuel status s. rewrite main_run by done. case_decide; [|done].
    by intros [= <- _].
Qed.

Lemma main_exit_status_witness :
  (∀ fuel, 4 < fuel → ∃ s, main frame0 fuel = Done (0%Z, s)) ∧
  (∀ fuel why, main frame0 fuel ≠ Fault why) ∧
  (∀ fuel status s, main frame0 fuel = Done (status, s) → status = 0%Z).
Proof. apply (main_exit_status frame0). by_evaluation. Defined.

(** C3. In a finite acyclic tree every node reachable from the pointer given
    to [dfs] occurs exactly once among the calls of [visit], and nothing
    else is visited.  In particular each of the seven nodes of [main] is
    visited exactly once and has exactly one line in the output of the
    program. *)
Theorem dfs_visits_each_node_once :
  (∀ (m : gmap addr Node) (node : ptr) (t : tree) (fuel : nat) (s : state),
     tree_at m node t →
     mem s = m →
     height t < fuel →
     ∃ s' tr,
       dfs fuel node s = Done s' ∧
       trace s' = trace s ++ tr ∧
       (NULL ∉ visit_calls tr) ∧
       ∀ x, (reachable m node x → occurrences (Some x) (visit_calls tr) = 1) ∧
            (¬ reachable m node x → occurrences (Some x) (visit_calls tr) = 0)) ∧
  (∀ (fr : frame) (fuel : nat),
     frame_ok fr →
     4 < fuel →
     ∃ s,
       main fr fuel = Done (0%Z, s) ∧
       (∀ x, x ∈ locals fr → occurrences (Some x) (visit_calls (trace s)) = 1) ∧
       (∀ nm, nm ∈ ["root"; "a"; "b"; "c"; "d"; "e"; "f"] →
          occurrences (visit_line nm) (lines (stdout s)) = 1)).
Proof.
  assert (∀ m node t, tree_at m node t →
            (NULL ∉ visit_calls (events t)) ∧
            ∀ x, (reachable m node x → occurrences (Some x) (visit_calls (events t)) = 1) ∧
                 (¬ reachable m node x → occurrences (Some x) (visit_calls (events t)) = 0))
    as Hwalk.
  { intros m node t [Hrepr Hnd]. rewrite visit_calls_events. split.
    - by intros (? & ? & _)%list_elem_of_fmap.
    - intros x. rewrite (reachable_repr m node t Hrepr). split; intros Hx.
      + apply occurrences_NoDup; [by apply (NoDup_fmap_2 Some)|].
        by apply list_elem_of_fmap_2.
      + apply occurrences_absent. by rewrite (list_elem_of_fmap_inj Some). }
  split.
  - intros m node t fuel s Ht Hm Hfuel.
    exists (walked t s), (events t).
    rewrite (dfs_repr m node t (proj1 Ht) fuel s Hm), decide_True by done.
    split; [done|]. split; [done|]. by apply (Hwalk m node t).
  - intros fr fuel Hfr Hfuel. exists (final fr).
    rewrite main_run, decide_True by done. split; [done|]. split.
    + intros x Hx. rewrite final_trace.
      apply (Hwalk _ _ _ (linked_tree fr Hfr)).
      apply (reachable_repr _ _ _ (linked_repr fr Hfr)).
      revert Hx. unfold locals. cbn [main_tree preorder app].
      rewrite !elem_of_cons. tauto.
    + intros nm Hnm. rewrite final_stdout.
      repeat (apply elem_of_cons in Hnm as [->|Hnm]; [reflexivity|]).
      by apply elem_of_nil in Hnm.
Qed.

Lemma dfs_visits_each_node_once_witness :
  (∃ s' tr,
     dfs 5 (Some (root frame0)) (linked frame0) = Done s' ∧
     trace s' = trace (linked frame0) ++ tr ∧
     (NULL ∉ visit_calls tr) ∧
     ∀ x,
       (reachable (mem (linked frame0)) (Some (root frame0)) x →
        occurrences (Some x) (visit_calls tr) = 1) ∧
       (¬ reachable (mem (linked frame0)) (Some (root frame0)) x →
        occurrences (Some x) (visit_calls tr) = 0)) ∧
  (∃ s,
     main frame0 5 = Done (0%Z, s) ∧
     (∀ x, x ∈ locals frame0 → occurrences (Some x) (visit_calls (trace s)) = 1) ∧
     (∀ nm, nm ∈ ["root"; "a"; "b"; "c"; "d"; "e"; "f"] →
        occurrences (visit_line nm) (lines (stdout s)) = 1)).
Proof.
  split.
  - apply (proj1 dfs_visits_each_node_once (mem (linked frame0))
             (Some (root frame0)) (main_tree frame0) 5 (linked frame0)).
    + apply (linked_tree frame0). by_evaluation.
    + reflexivity.
    + vm_compute. lia.
  - apply (proj2 dfs_visits_each_node_once frame0 5); [by_evaluation | lia].
Defined.

(** C4. On a finite acyclic tree with N nodes [dfs] returns, after exactly N
    calls of [visit]; it is entered N times at a node and N + 1 times at a
    [NULL] pointer.  For the tree of [main] these numbers are 7, 7 and 8. *)
Theorem dfs_terminates :
  (∀ (m : gmap addr Node) (node : ptr) (t : tree) (X : gset addr)
     (fuel : nat) (s : state),
     tree_at m node t →
     (∀ x, x ∈ X ↔ reachable m node x) →
     mem s = m →
     height t < fuel →
     ∃ s' tr,
       dfs fuel node s = Done s' ∧
       trace s' = trace s ++ tr ∧
       length (visit_calls tr) = size X ∧
       node_steps tr = size X ∧
       null_checks tr = S (size X)) ∧
  (∀ (fr : frame) (fuel : nat) (s : state),
     frame_ok fr →
     4 < fuel →
     mem s = mem (linked fr) →
     ∃ s' tr,
       dfs fuel (Some (root fr)) s = Done s' ∧
       trace s' = trace s ++ tr ∧
       length (visit_calls tr) = 7 ∧
       node_steps tr = 7 ∧
       null_checks tr = 8).
Proof.
  split.
  - intros m node t X fuel s Ht HX Hm Hfuel.
    exists (walked t s), (events t).
    rewrite (dfs_repr m node t (proj1 Ht) fuel s Hm), decide_True by done.
    rewrite (nodes_reachable m node t X Ht HX).
    rewrite visit_calls_events, length_fmap, length_preorder.
    by rewrite node_steps_events, null_checks_events.
  - intros fr fuel s Hfr Hfuel Hm.
    exists (walked (main_tree fr) s), (events (main_tree fr)).
    rewrite (dfs_repr _ _ _ (linked_repr fr Hfr) fuel s Hm).
    change (height (main_tree fr)) with 4. rewrite decide_True by done.
    rewrite visit_calls_events, length_fmap, length_preorder.
    by rewrite node_steps_events, null_checks_events.
Qed.

Lemma dfs_terminates_witness :
  (∃ s' tr,
     dfs 5 (Some (root frame0)) (linked frame0) = Done s' ∧
     trace s' = trace (linked frame0) ++ tr ∧
     length (visit_calls tr) = size (dom (mem (linked frame0))) ∧
     node_steps tr = size (dom (mem (linked frame0))) ∧
     null_checks tr = S (size (dom (mem (linked frame0))))) ∧
  (∃ s' tr,
     dfs 5 (Some (root frame0)) (linked frame0) = Done s' ∧
     trace s' = trace (linked frame0) ++ tr ∧
     length (visit_calls tr) = 7 ∧
     node_steps tr = 7 ∧
     null_checks tr = 8).
Proof.
  split.
  - apply (proj1 dfs_terminates (mem (linked frame0)) (Some (root frame0))
             (main_tree frame0) (dom (mem (linked frame0))) 5 (linked frame0)).
    + apply (linked_tree frame0). by_evaluation.
    + intros x. rewrite (linked_dom frame0), elem_of_list_to_set.
      rewrite (reachable_repr _ _ _ (linked_repr frame0 ltac:(by_evaluation))).
      unfold locals. cbn [main_tree preorder app]. rewrite !elem_of_cons. tauto.
    + reflexivity.
    + vm_compute. lia.
  - apply (proj2 dfs_terminates frame0 5 (linked frame0));
      [by_evaluation | lia | reflexivity].
Defined.

(** C9. Once [main] has linked the nodes, no member of any node changes:
    [visit] and [dfs] return with the memory they were given, and the tree
    after the traversal of [main] is the tree before it. *)
Theorem traversal_preserves_memory :
  (∀ (node : ptr) (s s' : state), visit node s = Done s' → mem s' = mem s) ∧
  (∀ (fuel : nat) (node : ptr) (s s' : state),
     dfs fuel node s = Done s' → mem s' = mem s) ∧
  (∀ (fr : frame) (fuel : nat),
     frame_ok fr →
     4 < fuel →
     ∃ s, main fr fuel = Done (0%Z, s) ∧ mem s = mem (linked fr)).
Proof.
  repeat split.
  - intros node s s' (x & nd & nm & _ & _ & _ & ->)%visit_done. done.
  - intros fuel node s s' Hdfs. by apply (dfs_done fuel node s s').
  - intros fr fuel Hfr Hfuel. exists (final fr).
    by rewrite main_run, decide_True.
Qed.

Lemma traversal_preserves_memory_witness :
  mem (write (visit_line "c" +:+ LF) (record (EVisit (Some (c frame0))) (linked frame0)))
  = mem (linked frame0) ∧
  mem (walked (main_tree frame0) (linked frame0)) = mem (linked frame0) ∧
  (∃ s, main frame0 5 = Done (0%Z, s) ∧ mem s = mem (linked frame0)).
Proof.
  split; [|split].
  - apply (proj1 traversal_preserves_memory (Some (c frame0)) (linked frame0)).
    vm_compute. reflexivity.
  - apply (proj1 (proj2 traversal_preserves_memory) 5 (Some (root frame0)) (linked frame0)).
    vm_compute. reflexivity.
  - apply (proj2 (proj2 traversal_preserves_memory) frame0 5); [by_evaluation | lia].
Defined.

(** C10. [visit] reads [node->name] without testing [node]: on [NULL] it goes
    wrong.  [dfs] calls it only behind its null test, so no run of [dfs]
    dereferences [NULL] and no completed run has called [visit] on [NULL];
    every node of [main] has a name, and no run of [main] goes wrong. *)
Theorem visit_deref_safe :
  (∀ s : state, visit NULL s = Fault NullDeref) ∧
  (∀ (fuel : nat) (node : ptr) (s : state), dfs fuel node s ≠ Fault NullDeref) ∧
  (∀ (fuel : nat) (node : ptr) (s s' : state),
     dfs fuel node s = Done s' →
     ∃ tr, trace s' = trace s ++ tr ∧ NULL ∉ visit_calls tr) ∧
  (∀ fr : frame,
     frame_ok fr →
     (∀ x, x ∈ locals fr →
        ∃ nd nm, mem (linked fr) !! x = Some nd ∧ name nd = Some nm) ∧
     (∀ fuel why, main fr fuel ≠ Fault why)).
Proof.
  split; [done|]. split; [apply dfs_no_null_deref|].
  split; [intros fuel node s s' Hdfs; by apply (dfs_done fuel node s s')|].
  intros fr Hfr. split.
  - intros x Hx. unfold locals in Hx.
    repeat (apply elem_of_cons in Hx as [->|Hx]; [eexists _, _; split;
      [first [ apply linked_root | apply linked_a | apply linked_b
             | apply linked_c | apply linked_d | apply linked_e
             | apply linked_f ]; exact Hfr | reflexivity]|]).
    by apply elem_of_nil in Hx.
  - intros fuel why. rewrite main_run by done. by case_decide.
Qed.

Lemma visit_deref_safe_witness :
  (∃ tr, trace (walked (main_tree frame0) (linked frame0))
         = trace (linked frame0) ++ tr ∧ NULL ∉ visit_calls tr) ∧
  (∀ x, x ∈ locals frame0 →
     ∃ nd nm, mem (linked frame0) !! x = Some nd ∧ name nd = Some nm) ∧
  (∀ fuel why, main frame0 fuel ≠ Fault why).
Proof.
  split.
  - apply (proj1 (proj2 (proj2 visit_deref_safe)) 5 (Some (root frame0)) (linked frame0)).
    vm_compute. reflexivity.
  - apply (proj2 (proj2 (proj2 visit_deref_safe)) frame0). by_evaluation.
Defined.

(** ** Further properties of [dfs], [visit] and [main] *)

(** A completed [dfs] has walked a finite unfolding of its argument. *)
Lemma dfs_done_repr (fuel : nat) :
  ∀ node s s', dfs fuel node s = Done s' →
    ∃ t, repr (mem s) node t ∧ height t < fuel ∧ s' = walked t s.
Proof.
  induction fuel as [|fuel IH]; intros node s s'; [done|].
  destruct node as [x|].
  - rewrite dfs_step.
    intros (s1 & Hv & (nd1 & Hd1 & (s2 & Hl & (nd2 & Hd2 & Hr)%bind_done)%bind_done)%bind_done)%bind_done.
    apply visit_done in Hv as (? & nd & nm & [= <-] & Hx & Hnm & ->).
    unfold deref in Hd1. cbn [mem write record] in Hx, Hd1.
    rewrite Hx in Hd1. injection Hd1 as <-.
    apply IH in Hl as (tl & Hrl & Hhl & ->). cbn [mem write record] in Hrl.
    unfold deref in Hd2. cbn [mem walked write record] in Hd2.
    rewrite Hx in Hd2. injection Hd2 as <-.
    apply IH in Hr as (tr & Hrr & Hhr & ->). cbn [mem walked write record] in Hrr.
    exists (Br x nm tl tr). split; [by eapply repr_node|].
    split; [cbn [height]; lia|]. by rewrite walked_br.
  - intros [= <-]. exists Leaf. split; [apply repr_null|].
    split; [cbn [height]; lia|]. by rewrite walked_leaf.
Qed.

(** A pointer unfolds to at most one tree. *)
Lemma repr_det (m : gmap addr Node) (p : ptr) (t1 t2 : tree) :
  repr m p t1 → repr m p t2 → t1 = t2.
Proof.
  intros H1. revert t2.
  induction H1 as [|x nd nm l r Hx Hnm _ IHl _ IHr]; intros t2 H2.
  - by inversion H2.
  - inversion H2 as [|? nd' nm' l' r' Hx' Hnm' Hl' Hr']; subst.
    rewrite Hx in Hx'. injection Hx' as <-.
    rewrite Hnm in Hnm'. injection Hnm' as <-.
    by rewrite (IHl l' Hl'), (IHr r' Hr').
Qed.

(** An object reachable in a tree heads a subtree of it. *)
Lemma repr_reachable (m : gmap addr Node) (p : ptr) (t : tree) :
  repr m p t → ∀ y, reachable m p y →
    ∃ t', repr m (Some y) t' ∧ nodes t' ≤ nodes t.
Proof.
  induction 1 as [|x nd nm l r Hx Hnm Hl IHl Hr IHr]; intros y Hy.
  - inversion Hy.
  - inversion Hy as [? nd' Hx'|? nd' ? Hx' Hy'|? nd' ? Hx' Hy']; subst.
    + exists (Br y nm l r). split; [by apply (repr_node m y nd nm l r)|lia].
    + rewrite Hx in Hx'. injection Hx' as <-.
      destruct (IHl y Hy') as (t' & Ht' & Hn). exists t'.
      split; [done|]. cbn [nodes]. lia.
    + rewrite Hx in Hx'. injection Hx' as <-.
      destruct (IHr y Hy') as (t' & Ht' & Hn). exists t'.
      split; [done|]. cbn [nodes]. lia.
Qed.

Lemma repr_no_cycle (m : gmap addr Node) (x : addr) (t : tree) :
  repr m (Some x) t → ¬ on_cycle m x.
Proof.
  intros Ht (nd & Hx & Hcyc).
  inversion Ht as [|? nd' nm l r Hx' Hnm Hl Hr]; subst.
  rewrite Hx in Hx'. injection Hx' as <-.
  destruct Hcyc as [Hy|Hy].
  - destruct (repr_reachable _ _ _ Hl x Hy) as (t' & Ht' & Hn).
    rewrite (repr_det _ _ _ _ Ht' Ht) in Hn. cbn [nodes] in Hn. lia.
  - destruct (repr_reachable _ _ _ Hr x Hy) as (t' & Ht' & Hn).
    rewrite (repr_det _ _ _ _ Ht' Ht) in Hn. cbn [nodes] in Hn. lia.
Qed.


(** X2. If an object reachable from the pointer given to [dfs] lies on a
    cycle of child pointers, [dfs] returns for no budget. *)
Theorem dfs_cycle_never_returns (fuel : nat) (node : ptr) (s s' : state) (x : addr) :
  reachable (mem s) node x →
  on_cycle (mem s) x →
  dfs fuel node s ≠ Done s'.
Proof.
  intros Hx Hcyc (t & Ht & _)%dfs_done_repr.
  destruct (repr_reachable _ _ _ Ht x Hx) as (t' & Ht' & _).
  by apply (repr_no_cycle _ _ _ Ht').
Qed.


Lemma dfs_cycle_never_returns_witness :
  dfs 100 (Some 0) cyclic ≠ Done cyclic.
Proof.
  apply (dfs_cycle_never_returns 100 (Some 0) cyclic cyclic 0).
  - by apply (reach_here _ 0 {| left := Some 1; right := NULL; name := Some "p" |}).
  - exists {| left := Some 1; right := NULL; name := Some "p" |}.
    split; [reflexivity|]. left.
    apply (reach_right _ 1 {| left := NULL; right := Some 0; name := Some "q" |});
      [reflexivity|].
    by apply (reach_here _ 0 {| left := Some 1; right := NULL; name := Some "p" |}).
Defined.








(** A tree stays represented when the objects it is made of are kept. *)
Lemma repr_agree (m m' : gmap addr Node) (p : ptr) (t : tree) :
  repr m p t → (∀ x, x ∈ preorder t → m' !! x = m !! x) → repr m' p t.
Proof.
  induction 1 as [|x nd nm l r Hx Hnm _ IHl _ IHr]; intros Hsame.
  - apply repr_null.
  - cbn [preorder] in Hsame. apply (repr_node m' x nd nm l r).
    + rewrite Hsame; [done|]. apply elem_of_cons. by left.
    + done.
    + apply IHl. intros y Hy. apply Hsame.
      apply elem_of_cons. right. apply elem_of_app. by left.
    + apply IHr. intros y Hy. apply Hsame.
      apply elem_of_cons. right. apply elem_of_app. by right.
Qed.

(** X6. [dfs] depends on the objects of the tree under its pointer only:
    in any memory that holds the same objects at the addresses of that tree,
    whatever else it holds, [dfs] returns having walked the same tree. *)
Theorem dfs_reads_only_tree (fuel : nat) (node : ptr) (t : tree) (s1 s2 : state) :
  repr (mem s1) node t →
  (∀ x, x ∈ preorder t → mem s2 !! x = mem s1 !! x) →
  height t < fuel →
  dfs fuel node s2 = Done (walked t s2).
Proof.
  intros Ht Hsame Hfuel.
  rewrite (dfs_repr _ _ _ (repr_agree _ _ _ _ Ht Hsame) fuel s2 eq_refl).
  by rewrite decide_True.
Qed.

Lemma dfs_reads_only_tree_witness :
  dfs 3 (Some (b frame0)) (declare 9 "z" (set_left (a frame0) NULL (linked frame0)))
  = Done (walked (Br (b frame0) "b" Leaf (Br (f frame0) "f" Leaf Leaf))
            (declare 9 "z" (set_left (a frame0) NULL (linked frame0)))).
Proof.
  apply (dfs_reads_only_tree 3 (Some (b frame0))
           (Br (b frame0) "b" Leaf (Br (f frame0) "f" Leaf Leaf))
           (linked frame0)).
  - apply (repr_node _ (b frame0)
             {| left := NULL; right := Some (f frame0); name := Some "b" |} "b");
      [reflexivity | reflexivity | apply repr_null |].
    apply (repr_node _ (f frame0)
             {| left := NULL; right := NULL; name := Some "f" |} "f");
      [reflexivity | reflexivity | apply repr_null | apply repr_null].
  - intros x Hx. cbn [preorder app] in Hx.
    apply elem_of_cons in Hx as [->|Hx]; [reflexivity|].
    apply elem_of_cons in Hx as [->|Hx]; [reflexivity|].
    by apply elem_of_nil in Hx.
  - vm_compute. lia.
Defined.

Lemma length_names (t : tree) : length (names t) = nodes t.
Proof.
  induction t as [|x nm l IHl r IHr]; [done|].
  cbn [names nodes length]. by rewrite length_app, IHl, IHr.
Qed.





(** X8. [visit] prints the name of its node as it is, whatever characters
    it holds (a [%s] inside the name is not expanded again), between
    [visiting node '] and ['] followed by a newline; it changes nothing
    else than the output. *)
Theorem visit_prints_name (s : state) (x : addr) (nd : Node) (nm : string) :
  mem s !! x = Some nd →
  name nd = Some nm →
  visit (Some x) s
  = Done {| mem := mem s;
            stdout := stdout s +:+ "visiting node '" +:+ nm +:+ "'" +:+ LF;
            trace := trace s ++ [EVisit (Some x)] |}.
Proof.
  intros Hx Hnm. rewrite (visit_ok s x nd nm Hx Hnm).
  unfold write, record, visit_line. cbn [mem stdout trace].
  by rewrite !string_app_assoc.
Qed.

Lemma visit_prints_name_witness :
  visit (Some 0)
    {| mem := {[ 0 := {| left := NULL; right := NULL; name := Some "100%s'" |} ]};
       stdout := "x"; trace := [] |}
  = Done {| mem := {[ 0 := {| left := NULL; right := NULL; name := Some "100%s'" |} ]};
            stdout := "x" +:+ "visiting node '" +:+ "100%s'" +:+ "'" +:+ LF;
            trace := [] ++ [EVisit (Some 0)] |}.
Proof.
  exact (visit_prints_name
           {| mem := {[ 0 := {| left := NULL; right := NULL; name := Some "100%s'" |} ]};
              stdout := "x"; trace := [] |}
           0 {| left := NULL; right := NULL; name := Some "100%s'" |} "100%s'"
           eq_refl eq_refl).
Defined.

(** X11. The budget [dfs] needs is the number of nested calls: on a tree of
    height h it runs out of budget exactly when given h or less, the
    deepest call being the one on a [NULL] child of a deepest node. *)
Theorem dfs_depth (fuel : nat) (node : ptr) (t : tree) (s : state) :
  repr (mem s) node t →
  (dfs fuel node s = OutOfFuel ↔ fuel ≤ height t).
Proof.
  intros Ht. rewrite (dfs_repr _ _ _ Ht fuel s eq_refl).
  case_decide; split; (done || lia).
Qed.

Lemma dfs_depth_witness :
  dfs 4 (Some (root frame0)) (linked frame0) = OutOfFuel ↔ 4 ≤ height (main_tree frame0).
Proof.
  apply (dfs_depth 4 (Some (root frame0)) (main_tree frame0) (linked frame0)).
  apply (linked_repr frame0). by_evaluation.
Defined.

Lemma name_set_left (s : state) (x y : addr) (v : ptr) :
  name <$> mem (set_left x v s) !! y = name <$> mem s !! y.
Proof.
  unfold set_left. cbn [mem]. rewrite lookup_alter.
  case_decide as Hxy; [subst y|done]. by destruct (mem s !! x).
Qed.

Lemma name_set_right (s : state) (x y : addr) (v : ptr) :
  name <$> mem (set_right x v s) !! y = name <$> mem s !! y.
Proof.
  unfold set_right. cbn [mem]. rewrite lookup_alter.
  case_decide as Hxy; [subst y|done]. by destruct (mem s !! x).
Qed.

(** X9. The six assignments of [main] only redirect child pointers of
    root, a, d and b: from any state, they create and remove no object,
    change no name, leave every other object as it is, and print nothing. *)
Theorem main_connect_frame (fr : frame) (s : state) :
  stdout (main_connect fr s) = stdout s ∧
  trace (main_connect fr s) = trace s ∧
  dom (mem (main_connect fr s)) = dom (mem s) ∧
  (∀ x, name <$> mem (main_connect fr s) !! x = name <$> mem s !! x) ∧
  (∀ y, y ∉ [root fr; a fr; d fr; b fr] →
     mem (main_connect fr s) !! y = mem s !! y).
Proof.
  unfold main_connect. cbv zeta. repeat split.
  - by repeat first [rewrite dom_set_left | rewrite dom_set_right].
  - intros x. by repeat first [rewrite name_set_left | rewrite name_set_right].
  - intros y Hy. rewrite !not_elem_of_cons in Hy.
    destruct Hy as (Hroot & Ha & Hd & Hb & _).
    by repeat first [ rewrite lookup_set_left_ne by done
                    | rewrite lookup_set_right_ne by done ].
Qed.

Lemma main_connect_frame_witness :
  mem (main_connect frame0 (main_declare frame0 initial)) !! c frame0
  = mem (main_declare frame0 initial) !! c frame0.
Proof.
  apply (proj2 (proj2 (proj2 (proj2
           (main_connect_frame frame0 (main_declare frame0 initial)))))).
  by_evaluation.
Defined.

(** X10. The declarations of [main] do what their comment says: from any
    state, each of the seven variables then holds a node with its own name
    and both child pointers [NULL]; no other object is touched and nothing
    is printed. *)
Theorem main_declare_nodes (fr : frame) (s : state) :
  frame_ok fr →
  Forall
    (λ xn, mem (main_declare fr s) !! xn.1
           = Some {| left := NULL; right := NULL; name := Some xn.2 |})
    [ (root fr, "root"); (a fr, "a"); (b fr, "b"); (c fr, "c");
      (d fr, "d"); (e fr, "e"); (f fr, "f") ] ∧
  (∀ y, y ∉ locals fr → mem (main_declare fr s) !! y = mem s !! y) ∧
  stdout (main_declare fr s) = stdout s ∧
  trace (main_declare fr s) = trace s.
Proof.
  intros Hfr. split; [|split; [|done]].
  - frame_distinct Hfr. unfold main_declare. cbv zeta.
    repeat apply Forall_cons_2; [..|apply Forall_nil_2]; cbn [fst snd];
      repeat first [ rewrite lookup_declare_ne by done
                   | rewrite lookup_declare_eq ]; reflexivity.
  - intros y Hy. unfold locals in Hy. rewrite !not_elem_of_cons in Hy.
    destruct Hy as (? & ? & ? & ? & ? & ? & ? & _).
    unfold main_declare. cbv zeta.
    by repeat rewrite lookup_declare_ne by done.
Qed.

Lemma main_declare_nodes_witness :
  Forall
    (λ xn, mem (main_declare frame0 cyclic) !! xn.1
           = Some {| left := NULL; right := NULL; name := Some xn.2 |})
    [ (root frame0, "root"); (a frame0, "a"); (b frame0, "b"); (c frame0, "c");
      (d frame0, "d"); (e frame0, "e"); (f frame0, "f") ] ∧
  (∀ y, y ∉ locals frame0 → mem (main_declare frame0 cyclic) !! y = mem cyclic !! y) ∧
  stdout (main_declare frame0 cyclic) = stdout cyclic ∧
  trace (main_declare frame0 cyclic) = trace cyclic.
Proof. apply (main_declare_nodes frame0 cyclic). by_evaluation. Defined.

(** X12. What [main] does shows no trace of where its variables live: for
    any two placements of the seven variables at distinct addresses and any
    budget, the two runs end the same way, with the same exit status and
    the same output. *)
Theorem main_frame_independent (fr1 fr2 : frame) (fuel : nat) :
  frame_ok fr1 →
  frame_ok fr2 →
  match main fr1 fuel, main fr2 fuel with
  | Done (status1, s1), Done (status2, s2) =>
      status1 = status2 ∧ stdout s1 = stdout s2
  | OutOfFuel, OutOfFuel => True
  | _, _ => False
  end.
Proof.
  intros Hfr1 Hfr2. rewrite !main_run by done.
  case_decide; [|done]. split; [done|]. by rewrite !final_stdout.
Qed.

Lemma main_frame_independent_witness :
  match main frame0 5,
        main {| root := 70; a := 60; b := 50; c := 40; d := 30; e := 20; f := 10 |} 5
  with
  | Done (status1, s1), Done (status2, s2) =>
      status1 = status2 ∧ stdout s1 = stdout s2
  | OutOfFuel, OutOfFuel => True
  | _, _ => False
  end.
Proof.
  apply (main_frame_independent frame0
           {| root := 70; a := 60; b := 50; c := 40; d := 30; e := 20; f := 10 |} 5);
    by_evaluation.
Defined.
